(** * vue-theme-plugin: the [useTheme] composable

    A shallow embedding of [useTheme] (the theme controller of the plugin)
    and the properties of its operations.

    The composable closes over five constants taken from its options
    ([defaultTheme], [available], [key], the resolved storage and
    [detectTheme]) and over two mutable objects: the [theme] ref and the
    [themes] record, which is the caller's own object and can be changed by
    the caller between two calls.  It acts on the ambient document root
    ([document.documentElement]) and on the browser's storages.

    All of this is explicit state here: a [World] holds the ref, the
    [themes] object, the root element's class list and attributes, the three
    possible storage backends, and a log of every call made to the DOM, to a
    storage backend and to [detectTheme].

    Conventions.
    - A JavaScript value of type [string | null | undefined] is an
      [option string]; [None] stands for both [null] and [undefined], which
      the code never tells apart (it only tests truthiness).
    - A string is truthy when it is not empty.
    - [classList] is a set of tokens.  The class markers are taken to be
      valid DOM tokens (no white space), on which [add] and [remove] succeed.
    - A storage backend is a key-value store: [getItem] looks a key up,
      [setItem] binds it.  A custom [StorageLike] object is such a store of
      its own.
    - [themes[name]] is a lookup among the entries of the object; a
      property inherited from [Object.prototype] carries neither [class]
      nor [dataTheme] and so behaves as a missing entry.
    - [Object.values(themes)] is enumerated in the order of [map_to_list];
      the class list after the sweep does not depend on that order (lemma
      [sweep_classList]), only the order of the removals in the log does. *)

From stdpp Require Import base strings gmap list.

Open Scope Z_scope.

(** ** Data model *)

(** [type ThemeConfig = { class?: string; dataTheme?: string }] *)
Record ThemeConfig := {
  class : option string;
  dataTheme : option string
}.

(** The [storage] option: ['local' | 'session' | 'none' | StorageLike]. *)
Inductive StorageOption :=
| StorageLocal
| StorageSession
| StorageNone
| StorageCustom.

(** A storage object: [localStorage], [sessionStorage] or the custom one. *)
Inductive StorageLike :=
| localStorage
| sessionStorage
| customStorage.

#[global] Instance StorageLike_eq_dec : EqDecision StorageLike.
Proof. solve_decision. Defined.

(** [type ThemeOptions]; an omitted property is [None]. *)
Record ThemeOptions := {
  opt_defaultTheme : option string;
  opt_available : list string;
  opt_themes : option (gmap string ThemeConfig);
  opt_key : option string;
  opt_storage : option StorageOption;
  (** [None]: no function supplied; [Some r]: a function returning [r]. *)
  opt_detectTheme : option (option string)
}.

(** The constants of the closure, after destructuring with defaults. *)
Record Controller := {
  defaultTheme : option string;
  available : list string;
  key : string;
  resolvedStorage : option StorageLike;
  detectTheme : option (option string)
}.

(** Calls made to the outside. *)
Inductive Event :=
| ClassListRemove (cls : string)
| ClassListAdd (cls : string)
| SetAttribute (name value : string)
| RemoveAttribute (name : string)
| GetItem (st : StorageLike) (k : string)
| SetItem (st : StorageLike) (k value : string)
| DetectTheme.

(** The host environment: root element, storages and the call log (most
    recent call first). *)
Record Env := {
  env_classList : gset string;
  env_attributes : gmap string string;
  env_local : gmap string string;
  env_session : gmap string string;
  env_custom : gmap string string;
  env_log : list Event
}.

Record World := {
  theme : option string;                 (* theme.value *)
  themes : gmap string ThemeConfig;      (* the themes object *)
  classList : gset string;               (* documentElement.classList *)
  attributes : gmap string string;       (* documentElement attributes *)
  localItems : gmap string string;
  sessionItems : gmap string string;
  customItems : gmap string string;
  log : list Event
}.

(** ** Field updates *)

Definition set_theme (v : option string) (w : World) : World :=
  {| theme := v; themes := themes w; classList := classList w;
     attributes := attributes w; localItems := localItems w;
     sessionItems := sessionItems w; customItems := customItems w;
     log := log w |}.


Definition set_classList (c : gset string) (w : World) : World :=
  {| theme := theme w; themes := themes w; classList := c;
     attributes := attributes w; localItems := localItems w;
     sessionItems := sessionItems w; customItems := customItems w;
     log := log w |}.

Definition set_attributes (a : gmap string string) (w : World) : World :=
  {| theme := theme w; themes := themes w; classList := classList w;
     attributes := a; localItems := localItems w;
     sessionItems := sessionItems w; customItems := customItems w;
     log := log w |}.

Definition emit (e : Event) (w : World) : World :=
  {| theme := theme w; themes := themes w; classList := classList w;
     attributes := attributes w; localItems := localItems w;
     sessionItems := sessionItems w; customItems := customItems w;
     log := e :: log w |}.

Definition items (st : StorageLike) (w : World) : gmap string string :=
  match st with
  | localStorage => localItems w
  | sessionStorage => sessionItems w
  | customStorage => customItems w
  end.

Definition set_items (st : StorageLike) (m : gmap string string) (w : World)
  : World :=
  {| theme := theme w; themes := themes w; classList := classList w;
     attributes := attributes w;
     localItems := if decide (st = localStorage) then m else localItems w;
     sessionItems := if decide (st = sessionStorage) then m else sessionItems w;
     customItems := if decide (st = customStorage) then m else customItems w;
     log := log w |}.

(** ** JavaScript primitives *)

(** Truthiness of a string: every string but the empty one. *)
Definition truthy (s : string) : bool :=
  match s with
  | EmptyString => false
  | String _ _ => true
  end.

(** [Array.prototype.includes] on an array of strings. *)
Definition includes (l : list string) (v : string) : bool :=
  bool_decide (v ∈ l).

(** [Array.prototype.indexOf]: the first index holding [v], or -1. *)
Fixpoint indexOf_from (l : list string) (v : option string) (i : Z) : Z :=
  match l with
  | [] => -1
  | x :: l' => if decide (Some x = v) then i else indexOf_from l' v (i + 1)
  end.

Definition indexOf (l : list string) (v : option string) : Z :=
  indexOf_from l v 0.

(** The remainder operator [%]; [None] is NaN (a zero divisor). *)
Definition js_rem (a b : Z) : option Z :=
  if decide (b = 0) then None else Some (Z.rem a b).

(** Indexing an array: [undefined] out of range or at NaN. *)
Definition at_index (l : list string) (i : option Z) : option string :=
  match i with
  | Some n => if decide (0 <= n) then l !! Z.to_nat n else None
  | None => None
  end.

(** ** DOM and storage calls *)

Definition classList_remove (cls : string) (w : World) : World :=
  emit (ClassListRemove cls) (set_classList (classList w ∖ {[cls]}) w).

Definition classList_add (cls : string) (w : World) : World :=
  emit (ClassListAdd cls) (set_classList (classList w ∪ {[cls]}) w).

Definition setAttribute (name value : string) (w : World) : World :=
  emit (SetAttribute name value)
       (set_attributes (<[name := value]> (attributes w)) w).

Definition removeAttribute (name : string) (w : World) : World :=
  emit (RemoveAttribute name) (set_attributes (delete name (attributes w)) w).

(** [resolvedStorage?.getItem(key)] *)
Definition getItem (st : option StorageLike) (k : string) (w : World)
  : option string * World :=
  match st with
  | Some s => (items s w !! k, emit (GetItem s k) w)
  | None => (None, w)
  end.

(** [resolvedStorage?.setItem(key, value)] *)
Definition setItem (st : option StorageLike) (k value : string) (w : World)
  : World :=
  match st with
  | Some s => emit (SetItem s k value) (set_items s (<[k := value]> (items s w)) w)
  | None => w
  end.

(** ** The composable *)

(** The body of the [forEach] callback: [if (cls) el.classList.remove(cls)]. *)
Definition sweep_one (w : World) (config : ThemeConfig) : World :=
  match class config with
  | Some cls => if truthy cls then classList_remove cls w else w
  | None => w
  end.

(** [Object.values(themes).forEach(...)] *)
Definition sweep (w : World) : World :=
  foldl sweep_one w (map_to_list (themes w)).*2.

Definition _applyTheme (name : string) (w : World) : World :=
  let config := themes w !! name in
  let w1 := sweep w in
  let w2 :=
    match config ≫= class with
    | Some cls => if truthy cls then classList_add cls w1 else w1
    | None => w1
    end in
  match config ≫= dataTheme with
  | Some d =>
      if truthy d then setAttribute "data-theme" d w2
      else removeAttribute "data-theme" w2
  | None => removeAttribute "data-theme" w2
  end.

Definition setTheme (c : Controller) (value : string) (w : World) : World :=
  if negb (includes (available c) value) then w
  else if decide (theme w = Some value) then w
  else
    let w1 := set_theme (Some value) w in
    let w2 := _applyTheme value w1 in
    setItem (resolvedStorage c) (key c) value w2.

(** [setTheme] called with a value that may be [undefined]: an array of
    strings does not include [undefined], so the first guard returns. *)
Definition setTheme_opt (c : Controller) (value : option string) (w : World)
  : World :=
  match value with
  | Some v => setTheme c v w
  | None => w
  end.

Definition nextIndex (c : Controller) (w : World) : option Z :=
  let currentIndex := indexOf (available c) (theme w) in
  js_rem (currentIndex + 1) (Z.of_nat (length (available c))).

Definition toggleTheme (c : Controller) (w : World) : World :=
  setTheme_opt c (at_index (available c) (nextIndex c w)) w.

(** [stored && available.includes(stored)], as a truth value. *)
Definition isValid (c : Controller) (stored : option string) : bool :=
  match stored with
  | Some s => truthy s && includes (available c) s
  | None => false
  end.

(** [!isValid && detectTheme ? detectTheme() : null] *)
Definition detect (c : Controller) (valid : bool) (w : World)
  : option string * World :=
  if valid then (None, w)
  else match detectTheme c with
       | Some r => (r, emit DetectTheme w)
       | None => (None, w)
       end.

(** The first half of the [onMounted] callback: the value [initial]. *)
Definition resolveInitial (c : Controller) (w : World)
  : option string * World :=
  let '(stored, w1) := getItem (resolvedStorage c) (key c) w in
  let valid := isValid c stored in
  let '(detected, w2) := detect c valid w1 in
  let initial :=
    if valid then stored
    else if isValid c detected then detected
    else defaultTheme c in
  (initial, w2).

(** The [onMounted] callback. *)
Definition onMounted (c : Controller) (w : World) : World :=
  let '(initial, w1) := resolveInitial c w in
  setTheme_opt c initial w1.

Definition resolveStorage (s : option StorageOption) : option StorageLike :=
  match default StorageLocal s with
  | StorageLocal => Some localStorage
  | StorageSession => Some sessionStorage
  | StorageNone => None
  | StorageCustom => Some customStorage
  end.

(** [useTheme(options)], up to the registration of the [onMounted] hook:
    the closure constants and the world holding the fresh ref. *)
Definition controller (o : ThemeOptions) : Controller :=
  {| defaultTheme :=
       match opt_defaultTheme o with
       | Some d => Some d
       | None => opt_available o !! 0%nat
       end;
     available := opt_available o;
     key := default "theme" (opt_key o);
     resolvedStorage := resolveStorage (opt_storage o);
     detectTheme := opt_detectTheme o |}.

Definition useTheme (o : ThemeOptions) (e : Env) : Controller * World :=
  let c := controller o in
  (c, {| theme := defaultTheme c;
         themes := default ∅ (opt_themes o);
         classList := env_classList e;
         attributes := env_attributes e;
         localItems := env_local e;
         sessionItems := env_session e;
         customItems := env_custom e;
         log := env_log e |}).


(** Sequences of calls on a controller. *)
Inductive Call :=
| CallSetTheme (name : string)
| CallToggleTheme
| CallMounted.

Definition call (c : Controller) (w : World) (k : Call) : World :=
  match k with
  | CallSetTheme name => setTheme c name w
  | CallToggleTheme => toggleTheme c w
  | CallMounted => onMounted c w
  end.

Definition run (c : Controller) (ks : list Call) (w : World) : World :=
  foldl (call c) w ks.

(** ** Vocabulary of the properties *)

(** The current theme is one of the available names. *)
Definition in_available (c : Controller) (w : World) : Prop :=
  ∃ s, theme w = Some s ∧ s ∈ available c.

(** A present, non-empty name of [available]. *)
Definition valid_name (c : Controller) (v : option string) : Prop :=
  ∃ s, v = Some s ∧ s ≠ "" ∧ s ∈ available c.

(** What the backend holds under [key] (nothing without a backend). *)
Definition stored_value (c : Controller) (w : World) : option string :=
  match resolvedStorage c with
  | Some st => items st w !! key c
  | None => None
  end.

(** What [detectTheme] returns (nothing when it is not supplied). *)
Definition detected_value (c : Controller) : option string :=
  match detectTheme c with
  | Some r => r
  | None => None
  end.

(** The calls made between [w] and a later world [w']. *)
Definition calls_between (w w' : World) : list Event :=
  take (length (log w') - length (log w))%nat (log w').


(** The state a [setTheme(value)] that passes both guards leads to. *)
Definition applied (c : Controller) (value : string) (w : World) : World :=
  setItem (resolvedStorage c) (key c) value
          (_applyTheme value (set_theme (Some value) w)).

(** The class marker a configuration makes the sweep remove. *)
Definition marker (config : ThemeConfig) : option string :=
  match class config with
  | Some cls => if truthy cls then Some cls else None
  | None => None
  end.

Definition markers (l : list ThemeConfig) : gset string :=
  list_to_set (omap marker l).

(** The calls the resolution makes: one [getItem] when there is a backend,
    then [detectTheme] when the stored value is not valid and a function
    was supplied. *)
Definition resolution_calls (c : Controller) (w : World) : list Event :=
  (if isValid c (stored_value c w) then []
   else match detectTheme c with
        | Some _ => [DetectTheme]
        | None => []
        end)
  ++ match resolvedStorage c with
     | Some st => [GetItem st (key c)]
     | None => []
     end.

(** The default theme is usable: it is supplied and available, or it is
    omitted and [available] has a first entry to fall back to. *)
Definition default_ok (o : ThemeOptions) : Prop :=
  match opt_defaultTheme o with
  | Some d => d ∈ opt_available o
  | None => opt_available o ≠ []
  end.

(** ** Concrete configurations used by the examples *)

Definition empty_env : Env :=
  {| env_classList := ∅; env_attributes := ∅; env_local := ∅;
     env_session := ∅; env_custom := ∅; env_log := [] |}.

(** [available = ["red","blue"]], both themes configured, default "blue". *)
Definition red_blue : ThemeOptions :=
  {| opt_defaultTheme := Some "blue";
     opt_available := ["red"; "blue"];
     opt_themes :=
       Some (<["red" := {| class := Some "theme-red"; dataTheme := None |}]>
            (<["blue" := {| class := Some "theme-blue";
                            dataTheme := Some "blue" |}]> ∅));
     opt_key := None;
     opt_storage := None;
     opt_detectTheme := None |}.

Definition red_blue_c : Controller := (useTheme red_blue empty_env).1.
Definition red_blue_w : World := (useTheme red_blue empty_env).2.

(** A single available theme and a default that is not available. *)
Definition lonely : ThemeOptions :=
  {| opt_defaultTheme := Some "z";
     opt_available := ["a"];
     opt_themes := None;
     opt_key := None;
     opt_storage := None;
     opt_detectTheme := None |}.

Definition lonely_c : Controller := (useTheme lonely empty_env).1.
Definition lonely_w : World := (useTheme lonely empty_env).2.

(** Three available themes, no default supplied. *)
Definition abc : ThemeOptions :=
  {| opt_defaultTheme := None;
     opt_available := ["a"; "b"; "c"];
     opt_themes := None;
     opt_key := None;
     opt_storage := None;
     opt_detectTheme := None |}.

Definition abc_c : Controller := (useTheme abc empty_env).1.
Definition abc_w : World := (useTheme abc empty_env).2.

(** A stored empty name, itself one of the available themes. *)
Definition with_empty_name : ThemeOptions :=
  {| opt_defaultTheme := Some "dark";
     opt_available := [""; "dark"];
     opt_themes := None;
     opt_key := None;
     opt_storage := None;
     opt_detectTheme := None |}.

Definition stored_empty_name : Env :=
  {| env_classList := ∅; env_attributes := ∅;
     env_local := {["theme" := ""]};
     env_session := ∅; env_custom := ∅; env_log := [] |}.

(** A stored theme and a detection function that would answer otherwise. *)
Definition stored_and_detected : ThemeOptions :=
  {| opt_defaultTheme := None;
     opt_available := ["light"; "s"; "d"];
     opt_themes := None;
     opt_key := None;
     opt_storage := None;
     opt_detectTheme := Some (Some "d") |}.

Definition stored_s : Env :=
  {| env_classList := ∅; env_attributes := ∅;
     env_local := {["theme" := "s"]};
     env_session := ∅; env_custom := ∅; env_log := [] |}.



(** ** Vocabulary of the further properties *)


(** [cls] is the non-empty class marker of some entry of [themes]. *)
Definition configured_marker (w : World) (cls : string) : Prop :=
  ∃ name config,
    themes w !! name = Some config ∧ class config = Some cls ∧ cls ≠ "".

(** The non-empty class marker of [name]'s entry, if there is one. *)
Definition theme_marker (w : World) (name : string) : option string :=
  themes w !! name ≫= marker.

Definition nonempty (s : string) : option string :=
  if truthy s then Some s else None.

(** The non-empty [dataTheme] of [name]'s entry, if there is one. *)
Definition theme_data (w : World) (name : string) : option string :=
  (themes w !! name ≫= dataTheme) ≫= nonempty.

(** A write to the data-theme attribute: set to a value, or removed. *)
Definition write_data_theme (v : option string) (a : gmap string string)
  : gmap string string :=
  match v with
  | Some d => <["data-theme" := d]> a
  | None => delete "data-theme" a
  end.

(** [w'] differs from [w] in its call log at most. *)
Definition same_state (w w' : World) : Prop :=
  theme w' = theme w ∧ themes w' = themes w ∧ classList w' = classList w
  ∧ attributes w' = attributes w ∧ ∀ st, items st w' = items st w.

(** What a controller leaves alone between [w] and [w']: the [themes]
    object, every attribute but data-theme, every class that is not a
    configured marker, every backend but its own and, in its own, every
    entry but the one under its key. *)
Definition framed (c : Controller) (w w' : World) : Prop :=
  themes w' = themes w
  ∧ (∀ a, a ≠ "data-theme" → attributes w' !! a = attributes w !! a)
  ∧ (∀ cls, ¬ configured_marker w cls →
            (cls ∈ classList w' ↔ cls ∈ classList w))
  ∧ (∀ st k, resolvedStorage c ≠ Some st ∨ k ≠ key c →
             items st w' !! k = items st w !! k).

(** The calls a controller is entitled to: removing or adding a configured
    class marker, writing or removing the data-theme attribute, reading or
    writing its own backend under its own key, calling a supplied
    [detectTheme]. *)
Definition allowed_call (c : Controller) (w : World) (ev : Event) : Prop :=
  match ev with
  | ClassListRemove cls => configured_marker w cls
  | ClassListAdd cls => configured_marker w cls
  | SetAttribute a v =>
      a = "data-theme" ∧ ∃ name, name ∈ available c ∧ theme_data w name = Some v
  | RemoveAttribute a => a = "data-theme"
  | GetItem st k => resolvedStorage c = Some st ∧ k = key c
  | SetItem st k v => resolvedStorage c = Some st ∧ k = key c ∧ v ∈ available c
  | DetectTheme => is_Some (detectTheme c)
  end.

(** Calls to a storage backend. *)
Definition is_storage_call (e : Event) : bool :=
  match e with
  | GetItem _ _ | SetItem _ _ _ => true
  | _ => false
  end.



(** Two themes and [storage: 'none']. *)
Definition unstored : ThemeOptions :=
  {| opt_defaultTheme := None;
     opt_available := ["light"; "dark"];
     opt_themes :=
       Some {["dark" := {| class := Some "dark"; dataTheme := Some "dark" |}]};
     opt_key := Some "ui-theme";
     opt_storage := Some StorageNone;
     opt_detectTheme := Some (Some "dark") |}.

(** No available theme at all. *)
Definition nothing_available : ThemeOptions :=
  {| opt_defaultTheme := None;
     opt_available := [];
     opt_themes := None;
     opt_key := None;
     opt_storage := None;
     opt_detectTheme := None |}.


(** * Properties *)

(** ** Basic facts *)

Lemma truthy_spec (s : string) : truthy s = true ↔ s ≠ "".
Proof. destruct s; simpl; split; congruence. Qed.

Lemma includes_spec (l : list string) (v : string) :
  includes l v = true ↔ v ∈ l.
Proof.
  unfold includes. split.
  - intros H. by apply bool_decide_eq_true in H.
  - intros H. by apply bool_decide_eq_true.
Qed.

Lemma includes_false (l : list string) (v : string) :
  includes l v = false ↔ v ∉ l.
Proof.
  unfold includes. split.
  - intros H. by apply bool_decide_eq_false in H.
  - intros H. by apply bool_decide_eq_false.
Qed.

Lemma isValid_spec (c : Controller) (v : option string) :
  isValid c v = true ↔ valid_name c v.
Proof.
  unfold isValid, valid_name. destruct v as [s|].
  - rewrite andb_true_iff, truthy_spec, includes_spec. split.
    + intros [? ?]. by exists s.
    + intros (s' & [= <-] & ? & ?). done.
  - split; [done | intros (s & ? & _); done].
Qed.

Lemma isValid_false (c : Controller) (v : option string) :
  isValid c v = false ↔ ¬ valid_name c v.
Proof.
  rewrite <- isValid_spec. destruct (isValid c v); split; congruence.
Qed.

(** *** The sweep *)

Lemma foldl_sweep_classList (l : list ThemeConfig) (w : World) :
  classList (foldl sweep_one w l) = classList w ∖ markers l.
Proof.
  revert w. induction l as [|config l IH]; intros w; simpl.
  - unfold markers. simpl. by rewrite difference_empty_L.
  - rewrite IH. unfold markers, sweep_one, marker. simpl.
    destruct (class config) as [cls|]; simpl; [|done].
    destruct (truthy cls); simpl; [|done].
    by rewrite difference_difference_l_L.
Qed.

Lemma foldl_sweep_frame (l : list ThemeConfig) (w : World) :
  let w' := foldl sweep_one w l in
  theme w' = theme w ∧ themes w' = themes w ∧ attributes w' = attributes w
  ∧ ∀ st, items st w' = items st w.
Proof.
  revert w. induction l as [|config l IH]; intros w; simpl; [done|].
  destruct (IH (sweep_one w config)) as (-> & -> & -> & Hi).
  unfold sweep_one in *.
  destruct (class config) as [cls|]; [|by split_and!].
  destruct (truthy cls); [|by split_and!].
  split_and!; try done.
Qed.

Lemma elem_of_markers (cls : string) (l : list ThemeConfig) :
  cls ∈ markers l ↔ ∃ config, config ∈ l ∧ class config = Some cls ∧ cls ≠ "".
Proof.
  unfold markers. rewrite elem_of_list_to_set, list_elem_of_omap.
  split.
  - intros (config & Hin & Hm). exists config. split; [done|].
    unfold marker in Hm. destruct (class config) as [s|]; [|done].
    destruct (truthy s) eqn:Ht; [|done].
    injection Hm as ->. by apply truthy_spec in Ht.
  - intros (config & Hin & Hc & Hne). exists config. split; [done|].
    unfold marker. rewrite Hc. apply truthy_spec in Hne. by rewrite Hne.
Qed.

(** The sweep removes exactly the non-empty class markers of the entries
    that [themes] holds when it runs, whatever the enumeration order. *)
Lemma sweep_classList (cls : string) (w : World) :
  cls ∈ classList (sweep w) ↔
  cls ∈ classList w ∧
  ¬ ∃ name config,
      themes w !! name = Some config ∧ class config = Some cls ∧ cls ≠ "".
Proof.
  unfold sweep. rewrite foldl_sweep_classList, elem_of_difference.
  rewrite elem_of_markers. split; intros [Hin Hno]; (split; [done|]).
  - intros (name & config & Hl & Hc & Hne). apply Hno. exists config.
    split; [|done]. apply list_elem_of_fmap. exists (name, config).
    split; [done|]. by apply elem_of_map_to_list.
  - intros (config & Hl & Hc & Hne). apply Hno.
    apply list_elem_of_fmap in Hl as ([name config'] & -> & Hl).
    apply elem_of_map_to_list in Hl. by exists name, config'.
Qed.

Lemma sweep_frame (w : World) :
  theme (sweep w) = theme w ∧ themes (sweep w) = themes w
  ∧ attributes (sweep w) = attributes w
  ∧ ∀ st, items st (sweep w) = items st w.
Proof. apply foldl_sweep_frame. Qed.

(** *** [_applyTheme] and [setItem] leave the ref and [themes] alone *)

Lemma _applyTheme_frame (name : string) (w : World) :
  theme (_applyTheme name w) = theme w
  ∧ themes (_applyTheme name w) = themes w
  ∧ ∀ st, items st (_applyTheme name w) = items st w.
Proof.
  destruct (sweep_frame w) as (Ht & Hm & _ & Hi).
  unfold _applyTheme.
  destruct (themes w !! name ≫= class) as [cls|];
    destruct (themes w !! name ≫= dataTheme) as [d|];
    repeat match goal with |- context [truthy ?s] => destruct (truthy s) end;
    simpl; split_and!; try done; intros st; rewrite <- Hi; by destruct st.
Qed.

Lemma setItem_frame (st : option StorageLike) (k v : string) (w : World) :
  theme (setItem st k v w) = theme w
  ∧ themes (setItem st k v w) = themes w
  ∧ classList (setItem st k v w) = classList w
  ∧ attributes (setItem st k v w) = attributes w.
Proof. by destruct st. Qed.

Lemma theme_applied (c : Controller) (value : string) (w : World) :
  theme (applied c value w) = Some value.
Proof.
  unfold applied.
  destruct (setItem_frame (resolvedStorage c) (key c) value
              (_applyTheme value (set_theme (Some value) w))) as (-> & _).
  by destruct (_applyTheme_frame value (set_theme (Some value) w)) as (-> & _).
Qed.

(** *** The calls of an applied [setTheme] *)

Lemma calls_between_app (w w' : World) (l : list Event) :
  log w' = l ++ log w → calls_between w w' = l.
Proof.
  intros H. unfold calls_between. rewrite H, length_app.
  replace (length l + length (log w) - length (log w))%nat
    with (length l) by lia.
  by rewrite take_app_length.
Qed.




(** *** The three paths of [setTheme] *)

Lemma setTheme_not_available (c : Controller) (value : string) (w : World) :
  value ∉ available c → setTheme c value w = w.
Proof.
  intros H. unfold setTheme. apply includes_false in H. by rewrite H.
Qed.

Lemma setTheme_current (c : Controller) (value : string) (w : World) :
  theme w = Some value → setTheme c value w = w.
Proof.
  intros H. unfold setTheme.
  destruct (includes (available c) value); simpl; [|done].
  by rewrite decide_True.
Qed.

Lemma setTheme_applied (c : Controller) (value : string) (w : World) :
  value ∈ available c → theme w ≠ Some value →
  setTheme c value w = applied c value w.
Proof.
  intros Hin Hne. unfold setTheme, applied.
  apply includes_spec in Hin. rewrite Hin. simpl.
  by rewrite decide_False.
Qed.

(** An available name is the current theme once [setTheme] has run. *)
Lemma setTheme_available_theme (c : Controller) (value : string) (w : World) :
  value ∈ available c → theme (setTheme c value w) = Some value.
Proof.
  intros Hin. destruct (decide (theme w = Some value)) as [Heq|Hne].
  - by rewrite setTheme_current.
  - rewrite setTheme_applied by done. apply theme_applied.
Qed.

(** Whatever the path, [setTheme] changes the ref to [value] or not at all. *)
Lemma setTheme_theme (c : Controller) (value : string) (w : World) :
  theme (setTheme c value w) = theme w
  ∨ (value ∈ available c ∧ theme (setTheme c value w) = Some value).
Proof.
  destruct (decide (value ∈ available c)) as [Hin|Hin].
  - destruct (decide (theme w = Some value)) as [Heq|Hne].
    + left. by rewrite setTheme_current.
    + right. split; [done|]. rewrite setTheme_applied by done.
      apply theme_applied.
  - left. by rewrite setTheme_not_available.
Qed.

(** ** setTheme *)

(** C6. For every name that is not in [available], [setTheme(name)] returns
    at its first guard: the world after the call is the world before it, so
    the current theme, the root's class set and attributes and every storage
    backend are unchanged, and no call to the DOM or to a backend was made
    (none that could raise). *)
Theorem setTheme_unknown_is_noop (c : Controller) (name : string) (w : World) :
  name ∉ available c →
  setTheme c name w = w
  ∧ theme (setTheme c name w) = theme w
  ∧ classList (setTheme c name w) = classList w
  ∧ attributes (setTheme c name w) = attributes w
  ∧ (∀ st, items st (setTheme c name w) = items st w)
  ∧ calls_between w (setTheme c name w) = [].
Proof.
  intros H. rewrite (setTheme_not_available c name w H).
  split_and!; try done.
  unfold calls_between. by rewrite Nat.sub_diag.
Qed.

Lemma setTheme_unknown_is_noop_witness :
  ("green" ∉ available red_blue_c)
  ∧ setTheme red_blue_c "green" red_blue_w = red_blue_w.
Proof.
  assert (H : "green" ∉ available red_blue_c).
  { apply (bool_decide_unpack _). by vm_compute. }
  split; [exact H|].
  exact (proj1 (setTheme_unknown_is_noop red_blue_c "green" red_blue_w H)).
Defined.

(** C7. For every name in [available], reading the current theme after
    [setTheme(name)] gives [name]. *)
Theorem setTheme_then_read (c : Controller) (name : string) (w : World) :
  name ∈ available c → theme (setTheme c name w) = Some name.
Proof.
  apply setTheme_available_theme.
Qed.

Lemma setTheme_then_read_witness :
  "red" ∈ available red_blue_c
  ∧ theme (setTheme red_blue_c "red" red_blue_w) = Some "red".
Proof.
  assert (H : "red" ∈ available red_blue_c).
  { apply (bool_decide_unpack _). by vm_compute. }
  split; [exact H|].
  exact (setTheme_then_read red_blue_c "red" red_blue_w H).
Defined.

(** C9. [setTheme] is idempotent: the world after two calls in a row with
    the same name is the world after the first one.  The second call finds
    the ref equal to its argument (or the name unavailable) and returns: it
    updates nothing and calls neither the DOM nor the storage backend. *)
Theorem setTheme_idempotent (c : Controller) (name : string) (w : World) :
  setTheme c name (setTheme c name w) = setTheme c name w
  ∧ calls_between (setTheme c name w) (setTheme c name (setTheme c name w))
    = [].
Proof.
  assert (H : setTheme c name (setTheme c name w) = setTheme c name w).
  { destruct (decide (name ∈ available c)) as [Hin|Hin].
    - apply setTheme_current. by apply setTheme_available_theme.
    - by apply setTheme_not_available. }
  rewrite H. split; [done|].
  unfold calls_between. by rewrite Nat.sub_diag.
Qed.

(** ** toggleTheme *)

Lemma indexOf_from_range (l : list string) (v : option string) (i : Z) :
  indexOf_from l v i = -1
  ∨ i <= indexOf_from l v i < i + Z.of_nat (length l).
Proof.
  revert i. induction l as [|x l IH]; intros i; simpl; [by left|].
  case_decide; [right; lia|].
  destruct (IH (i + 1)) as [->|?]; [by left | right; lia].
Qed.

Lemma indexOf_from_absent (l : list string) (v : option string) (i : Z) :
  (∀ x, x ∈ l → Some x ≠ v) → indexOf_from l v i = -1.
Proof.
  revert i. induction l as [|x l IH]; intros i H; simpl; [done|].
  rewrite decide_False by (apply H; left).
  apply IH. intros y Hy. apply H. by right.
Qed.

Lemma indexOf_from_lookup (l : list string) (x : string) (i : Z) (k : nat) :
  NoDup l → l !! k = Some x →
  indexOf_from l (Some x) i = i + Z.of_nat k.
Proof.
  revert i k. induction l as [|y l IH]; intros i k Hnd Hk; [done|].
  apply NoDup_cons in Hnd as [Hy Hnd]. simpl.
  destruct k as [|k]; simpl in Hk.
  - injection Hk as ->. rewrite decide_True by done. lia.
  - rewrite decide_False.
    + rewrite (IH (i + 1) k Hnd Hk). lia.
    + intros [= ->]. apply Hy. by eapply list_elem_of_lookup_2.
Qed.

(** With a non-empty [available], [toggleTheme] reads the entry at
    [(currentIndex + 1) mod length], which exists, and hands it to
    [setTheme]. *)
Lemma toggleTheme_setTheme (c : Controller) (w : World) :
  available c ≠ [] →
  ∃ value,
    available c
      !! Z.to_nat ((indexOf (available c) (theme w) + 1)
                   `mod` Z.of_nat (length (available c))) = Some value
    ∧ toggleTheme c w = setTheme c value w.
Proof.
  intros Hne.
  assert (Hlen : 0 < Z.of_nat (length (available c))).
  { destruct (available c); [done | simpl; lia]. }
  pose proof (indexOf_from_range (available c) (theme w) 0) as Hr.
  fold (indexOf (available c) (theme w)) in Hr.
  set (n := Z.of_nat (length (available c))) in *.
  set (i := indexOf (available c) (theme w)) in *.
  assert (Hi : 0 <= i + 1) by lia.
  pose proof (Z.mod_pos_bound (i + 1) n Hlen) as Hm.
  destruct (lookup_lt_is_Some_2 (available c) (Z.to_nat ((i + 1) `mod` n)))
    as [value Hv]; [lia|].
  exists value. split; [done|].
  unfold toggleTheme, nextIndex, js_rem.
  fold i. fold n. rewrite decide_False by lia.
  rewrite Z.rem_mod_nonneg by lia. simpl.
  rewrite decide_True by lia. by rewrite Hv.
Qed.

(** From the entry at position [k] of a duplicate-free [available],
    [toggleTheme] moves to the entry at [(k + 1) mod length]. *)
Lemma toggleTheme_next (c : Controller) (w : World) (k : nat) (x : string) :
  NoDup (available c) → available c !! k = Some x → theme w = Some x →
  ∃ y, available c !! ((k + 1) `mod` length (available c))%nat = Some y
       ∧ toggleTheme c w = setTheme c y w
       ∧ theme (toggleTheme c w) = Some y.
Proof.
  intros Hnd Hk Ht.
  assert (Hne : available c ≠ []) by (intros E; by rewrite E in Hk).
  destruct (toggleTheme_setTheme c w Hne) as (y & Hy & Htog).
  exists y. rewrite Htog.
  assert (Hidx : indexOf (available c) (theme w) = Z.of_nat k).
  { rewrite Ht. unfold indexOf.
    rewrite (indexOf_from_lookup _ _ 0 k Hnd Hk). lia. }
  rewrite Hidx in Hy.
  assert (Hlen : (0 < length (available c))%nat).
  { destruct (available c); [done | simpl; lia]. }
  replace (Z.of_nat k + 1) with (Z.of_nat (k + 1)) in Hy by lia.
  rewrite <- Nat2Z.inj_mod, Nat2Z.id in Hy.
  split_and!; [done | done |].
  apply setTheme_available_theme. by eapply list_elem_of_lookup_2.
Qed.

Lemma theme_neq_of_not_available (c : Controller) (w : World) (a : string) :
  (∀ s, theme w = Some s → s ∉ available c) → a ∈ available c →
  theme w ≠ Some a.
Proof. intros H Ha Ht. by apply (H a Ht). Qed.

(** C8, as the code has it.  With a non-empty [available], [toggleTheme]
    takes the index of the current theme, reads the entry at
    (index + 1) mod length and calls [setTheme] with it.  When [available]
    has no duplicates and the current theme is its entry at position [k],
    the theme becomes the entry at (k + 1) mod length, so the last entry
    wraps to the first; from [a] in [a, b, c] (distinct) the toggles give
    b, c, a, b.  With the single entry [a] as current theme, [toggleTheme]
    leaves the world as it is. *)
Theorem toggleTheme_cycles (c : Controller) (w : World) :
  (available c ≠ [] →
   ∃ value,
     available c
       !! Z.to_nat ((indexOf (available c) (theme w) + 1)
                    `mod` Z.of_nat (length (available c))) = Some value
     ∧ toggleTheme c w = setTheme c value w)
  ∧ (∀ (k : nat) (x : string),
       NoDup (available c) → available c !! k = Some x → theme w = Some x →
       theme (toggleTheme c w)
       = available c !! ((k + 1) `mod` length (available c))%nat)
  ∧ (∀ a b d : string,
       available c = [a; b; d] → NoDup [a; b; d] → theme w = Some a →
       let w1 := toggleTheme c w in
       let w2 := toggleTheme c w1 in
       let w3 := toggleTheme c w2 in
       let w4 := toggleTheme c w3 in
       theme w1 = Some b ∧ theme w2 = Some d ∧ theme w3 = Some a
       ∧ theme w4 = Some b)
  ∧ (∀ a : string,
       available c = [a] → theme w = Some a → toggleTheme c w = w).
Proof.
  assert (Hnext : ∀ (w' : World) (k : nat) (x : string),
             NoDup (available c) → available c !! k = Some x →
             theme w' = Some x →
             theme (toggleTheme c w')
             = available c !! ((k + 1) `mod` length (available c))%nat).
  { intros w' k x Hnd Hk Ht.
    destruct (toggleTheme_next c w' k x Hnd Hk Ht) as (y & Hy & _ & Hth).
    by rewrite Hy. }
  split_and!.
  - apply toggleTheme_setTheme.
  - apply Hnext.
  - intros a b d Hav Hnd Ht. simpl.
    rewrite <- Hav in Hnd.
    assert (H1 : theme (toggleTheme c w) = Some b).
    { rewrite (Hnext w 0%nat a Hnd); rewrite ?Hav; done. }
    assert (H2 : theme (toggleTheme c (toggleTheme c w)) = Some d).
    { rewrite (Hnext _ 1%nat b Hnd); rewrite ?Hav; done. }
    assert (H3 : theme (toggleTheme c (toggleTheme c (toggleTheme c w)))
                 = Some a).
    { rewrite (Hnext _ 2%nat d Hnd); rewrite ?Hav; done. }
    split_and!; try done.
    rewrite (Hnext _ 0%nat a Hnd); rewrite ?Hav; done.
  - intros a Hav Ht.
    assert (Hne : available c ≠ []) by (by rewrite Hav).
    destruct (toggleTheme_setTheme c w Hne) as (y & Hy & ->).
    apply setTheme_current. rewrite Ht. f_equal.
    rewrite Hav in Hy. apply list_elem_of_lookup_2 in Hy.
    apply list_elem_of_singleton in Hy. done.
Qed.

Lemma toggleTheme_cycles_witness :
  available abc_c = ["a"; "b"; "c"] ∧ NoDup ["a"; "b"; "c"]
  ∧ theme abc_w = Some "a"
  ∧ theme (toggleTheme abc_c abc_w) = Some "b"
  ∧ theme (toggleTheme abc_c (toggleTheme abc_c abc_w)) = Some "c".
Proof.
  assert (Hav : available abc_c = ["a"; "b"; "c"]) by reflexivity.
  assert (Hnd : NoDup ["a"; "b"; "c"]).
  { apply (bool_decide_unpack _). by vm_compute. }
  assert (Ht : theme abc_w = Some "a") by reflexivity.
  split; [exact Hav|]. split; [exact Hnd|]. split; [exact Ht|]. split.
  - exact (proj1 (proj1 (proj2 (proj2 (toggleTheme_cycles abc_c abc_w)))
                    "a" "b" "c" Hav Hnd Ht)).
  - exact (proj1 (proj2 (proj1 (proj2 (proj2 (toggleTheme_cycles abc_c abc_w)))
                    "a" "b" "c" Hav Hnd Ht))).
Defined.

(** C8 as stated fails for a single available theme when the current theme
    is not that entry: here the default is "z", [available] is ["a"], and
    [toggleTheme] changes the theme to "a". *)
Lemma toggleTheme_single_entry_changes :
  available lonely_c = ["a"] ∧ theme lonely_w = Some "z"
  ∧ theme (toggleTheme lonely_c lonely_w) = Some "a"
  ∧ toggleTheme lonely_c lonely_w ≠ lonely_w.
Proof.
  assert (H : theme (toggleTheme lonely_c lonely_w) = Some "a")
    by (by vm_compute).
  split; [reflexivity|]. split; [reflexivity|]. split; [exact H|].
  intros E. rewrite E in H. discriminate H.
Qed.

(** C10. When the current theme is not in [available] (and [available] has
    a first entry), [indexOf] gives -1, the next index is 0 and
    [toggleTheme] sets the theme to the first entry, applying it and
    storing it. *)
Theorem toggleTheme_outside_available
  (c : Controller) (w : World) (first : string) (rest : list string) :
  available c = first :: rest →
  (∀ s, theme w = Some s → s ∉ available c) →
  indexOf (available c) (theme w) = -1
  ∧ nextIndex c w = Some 0
  ∧ toggleTheme c w = applied c first w
  ∧ theme (toggleTheme c w) = Some first.
Proof.
  intros Hav Hout.
  assert (Hidx : indexOf (available c) (theme w) = -1).
  { apply indexOf_from_absent. intros x Hx E. by apply (Hout x). }
  assert (Hnext : nextIndex c w = Some 0).
  { unfold nextIndex, js_rem. rewrite Hidx, Hav.
    rewrite decide_False by (simpl; lia). done. }
  assert (Hin : first ∈ available c) by (rewrite Hav; left).
  assert (Htog : toggleTheme c w = applied c first w).
  { unfold toggleTheme. rewrite Hnext.
    replace (at_index (available c) (Some 0)) with (Some first)
      by (by rewrite Hav).
    apply setTheme_applied; [done|].
    by apply (theme_neq_of_not_available c). }
  split_and!; try done.
  rewrite Htog. apply theme_applied.
Qed.

Lemma toggleTheme_outside_available_witness :
  available lonely_c = ["a"]
  ∧ (∀ s, theme lonely_w = Some s → s ∉ available lonely_c)
  ∧ theme (toggleTheme lonely_c lonely_w) = Some "a".
Proof.
  assert (Hav : available lonely_c = "a" :: []) by reflexivity.
  assert (Hout : ∀ s, theme lonely_w = Some s → s ∉ available lonely_c).
  { intros s [= <-]. apply (bool_decide_unpack _). by vm_compute. }
  split; [exact Hav|]. split; [exact Hout|].
  exact (proj2 (proj2 (proj2
    (toggleTheme_outside_available lonely_c lonely_w "a" [] Hav Hout)))).
Defined.

(** ** The startup resolution *)

Lemma getItem_value (c : Controller) (w : World) :
  (getItem (resolvedStorage c) (key c) w).1 = stored_value c w.
Proof. unfold getItem, stored_value. by destruct (resolvedStorage c). Qed.

(** The value [initial] of the [onMounted] callback. *)
Lemma resolveInitial_value (c : Controller) (w : World) :
  (resolveInitial c w).1 =
  if isValid c (stored_value c w) then stored_value c w
  else if isValid c (detected_value c) then detected_value c
  else defaultTheme c.
Proof.
  unfold resolveInitial. rewrite <- getItem_value.
  destruct (getItem (resolvedStorage c) (key c) w) as [stored w1]. simpl.
  unfold detect, detected_value.
  destruct (isValid c stored); [done|].
  by destruct (detectTheme c).
Qed.

Lemma resolveInitial_world (c : Controller) (w : World) :
  let w' := (resolveInitial c w).2 in
  theme w' = theme w ∧ themes w' = themes w ∧ classList w' = classList w
  ∧ attributes w' = attributes w ∧ (∀ st, items st w' = items st w)
  ∧ log w' = resolution_calls c w ++ log w.
Proof.
  unfold resolveInitial, resolution_calls. rewrite <- getItem_value.
  unfold getItem, detect.
  destruct (resolvedStorage c) as [st|]; simpl;
    try match goal with
        | |- context [isValid c ?v] => destruct (isValid c v)
        end;
    simpl; try destruct (detectTheme c); simpl;
    split_and!; try done; intros st'; by destruct st'.
Qed.

Lemma onMounted_unfold (c : Controller) (w : World) :
  onMounted c w
  = setTheme_opt c (resolveInitial c w).1 (resolveInitial c w).2.
Proof. unfold onMounted. by destruct (resolveInitial c w). Qed.


(** ** The invariant *)

Lemma setTheme_opt_theme (c : Controller) (v : option string) (w : World) :
  theme (setTheme_opt c v w) = theme w ∨ in_available c (setTheme_opt c v w).
Proof.
  destruct v as [s|]; simpl; [|by left].
  destruct (setTheme_theme c s w) as [H|[Hin H]]; [by left|].
  right. by exists s.
Qed.

(** No call moves the current theme outside [available]: a call leaves it
    as it was or sets it to an available name. *)
Lemma call_theme (c : Controller) (w : World) (k : Call) :
  theme (call c w k) = theme w ∨ in_available c (call c w k).
Proof.
  destruct k as [name| |]; simpl.
  - apply (setTheme_opt_theme c (Some name) w).
  - apply setTheme_opt_theme.
  - rewrite onMounted_unfold.
    destruct (resolveInitial_world c w) as (Ht & _).
    rewrite <- Ht. apply setTheme_opt_theme.
Qed.

Lemma call_in_available (c : Controller) (w : World) (k : Call) :
  in_available c w → in_available c (call c w k).
Proof.
  intros (s & Hs & Hin).
  destruct (call_theme c w k) as [H|H]; [|done].
  exists s. by rewrite H.
Qed.

Lemma run_in_available (c : Controller) (ks : list Call) (w : World) :
  in_available c w → in_available c (run c ks w).
Proof.
  revert w. induction ks as [|k ks IH]; intros w Hw; [done|].
  simpl. apply IH. by apply call_in_available.
Qed.

Lemma useTheme_in_available (o : ThemeOptions) (e : Env) :
  default_ok o → in_available (controller o) (useTheme o e).2.
Proof.
  unfold default_ok, in_available. simpl.
  destruct (opt_defaultTheme o) as [d|].
  - intros Hd. by exists d.
  - intros Hne. destruct (opt_available o) as [|a l]; [done|].
    exists a. split; [done | left].
Qed.

(** C3, as the code has it.  When the default theme is usable (supplied and
    in [available], or omitted with a non-empty [available]), the current
    theme is in [available] after construction and after every sequence of
    [setTheme], [toggleTheme] and mount calls.  For any controller, a call
    never sets the current theme to a value outside [available]: it leaves
    it unchanged or sets it to an available name. *)
Theorem theme_stays_available (o : ThemeOptions) (e : Env) (ks : list Call) :
  (default_ok o →
   in_available (controller o) (run (controller o) ks (useTheme o e).2))
  ∧ (∀ (w : World) (k : Call),
       theme (call (controller o) w k) = theme w
       ∨ in_available (controller o) (call (controller o) w k)).
Proof.
  split.
  - intros Hd. apply run_in_available. by apply useTheme_in_available.
  - intros w k. apply call_theme.
Qed.

Lemma theme_stays_available_witness :
  default_ok red_blue
  ∧ in_available red_blue_c
      (run red_blue_c [CallToggleTheme; CallSetTheme "green"; CallMounted]
           red_blue_w).
Proof.
  assert (Hd : default_ok red_blue).
  { unfold default_ok. simpl. apply (bool_decide_unpack _). by vm_compute. }
  split; [exact Hd|].
  exact (proj1 (theme_stays_available red_blue empty_env
                  [CallToggleTheme; CallSetTheme "green"; CallMounted]) Hd).
Defined.

(** C3 as stated fails when the supplied default is not an available name:
    with [available = ["a"]] and default "z" the current theme is "z" after
    construction, and [setTheme("z")] leaves it there. *)
Lemma theme_outside_available :
  opt_available lonely ≠ []
  ∧ theme (run lonely_c [CallSetTheme "z"] lonely_w) = Some "z"
  ∧ ¬ in_available lonely_c (run lonely_c [CallSetTheme "z"] lonely_w).
Proof.
  assert (H : theme (run lonely_c [CallSetTheme "z"] lonely_w) = Some "z")
    by (by vm_compute).
  split; [done|]. split; [exact H|].
  intros (s & Hs & Hin). rewrite H in Hs. injection Hs as <-.
  revert Hin. apply (bool_decide_unpack _). by vm_compute.
Qed.

(** ** Initialization *)

Lemma DetectTheme_in_resolution_calls (c : Controller) (w : World) :
  DetectTheme ∈ resolution_calls c w
  ↔ ¬ valid_name c (stored_value c w) ∧ is_Some (detectTheme c).
Proof.
  unfold resolution_calls. rewrite <- isValid_false.
  destruct (isValid c (stored_value c w));
    destruct (detectTheme c) as [r|];
    destruct (resolvedStorage c) as [st|]; simpl; split;
    try (intros [? [? ?]]; done); try (intros [? ?]; done);
    try (intros H; by apply list_elem_of_In in H; simpl in H; intuition);
    try (intros _; split; [done | by eexists]);
    try (intros _; left).
Qed.

(** C4, as the code has it.  A value counts when it is present, not the
    empty string, and in [available].  The startup theme is the stored value
    when that counts; otherwise what [detectTheme] returns when that counts;
    otherwise the configured default.  [detectTheme] is called exactly when
    the stored value does not count and a function was supplied.  The
    resolved value, when it is an available name, is the current theme
    after the mount hook. *)
Theorem startup_resolution (c : Controller) (w : World) :
  let stored := stored_value c w in
  let detected := detected_value c in
  let initial := (resolveInitial c w).1 in
  let calls := calls_between w (resolveInitial c w).2 in
  (valid_name c stored → initial = stored ∧ DetectTheme ∉ calls)
  ∧ (¬ valid_name c stored → valid_name c detected → initial = detected)
  ∧ (¬ valid_name c stored → ¬ valid_name c detected →
     initial = defaultTheme c)
  ∧ (DetectTheme ∈ calls ↔ ¬ valid_name c stored ∧ is_Some (detectTheme c))
  ∧ (∀ s, initial = Some s → s ∈ available c →
          theme (onMounted c w) = Some s).
Proof.
  cbv zeta.
  destruct (resolveInitial_world c w) as (_ & _ & _ & _ & _ & Hlog).
  rewrite (calls_between_app _ _ _ Hlog).
  rewrite resolveInitial_value.
  split_and!.
  - intros Hs. split.
    + apply isValid_spec in Hs. by rewrite Hs.
    + rewrite DetectTheme_in_resolution_calls. by intros [? _].
  - intros Hs Hd. apply isValid_false in Hs. apply isValid_spec in Hd.
    by rewrite Hs, Hd.
  - intros Hs Hd. apply isValid_false in Hs, Hd. by rewrite Hs, Hd.
  - apply DetectTheme_in_resolution_calls.
  - intros s Hi Hin. rewrite onMounted_unfold, resolveInitial_value, Hi.
    simpl. by apply setTheme_available_theme.
Qed.

Lemma startup_resolution_witness :
  let c := controller stored_and_detected in
  let w := (useTheme stored_and_detected stored_s).2 in
  valid_name c (stored_value c w)
  ∧ valid_name c (detected_value c)
  ∧ (resolveInitial c w).1 = Some "s"
  ∧ DetectTheme ∉ calls_between w (resolveInitial c w).2.
Proof.
  set (c := controller stored_and_detected).
  set (w := (useTheme stored_and_detected stored_s).2).
  assert (Hs : valid_name c (stored_value c w)).
  { exists "s". split_and!; [by vm_compute | done |].
    apply (bool_decide_unpack _). by vm_compute. }
  assert (Hd : valid_name c (detected_value c)).
  { exists "d". split_and!; [by vm_compute | done |].
    apply (bool_decide_unpack _). by vm_compute. }
  assert (Hv : stored_value c w = Some "s") by (by vm_compute).
  split; [exact Hs|]. split; [exact Hd|].
  destruct (proj1 (startup_resolution c w) Hs) as [Hi Hn].
  split; [by rewrite Hi | exact Hn].
Defined.

(** C4 as stated fails for the empty name: the backend holds "" under the
    key, "" is in [available], and the resolution still falls through to the
    default. *)
Lemma stored_empty_name_loses :
  let c := controller with_empty_name in
  let w := (useTheme with_empty_name stored_empty_name).2 in
  stored_value c w = Some "" ∧ "" ∈ available c
  ∧ (resolveInitial c w).1 = Some "dark"
  ∧ theme (onMounted c w) = Some "dark".
Proof.
  split_and!.
  - by vm_compute.
  - apply (bool_decide_unpack _). by vm_compute.
  - by vm_compute.
  - by vm_compute.
Qed.

(** The mount hook when the resolved value is the one the ref already
    holds: nothing happens after the resolution. *)
Lemma onMounted_resolved_current (c : Controller) (w : World) :
  (resolveInitial c w).1 = theme w →
  onMounted c w = (resolveInitial c w).2.
Proof.
  intros H. rewrite onMounted_unfold.
  destruct (resolveInitial_world c w) as (Ht & _).
  destruct (resolveInitial c w).1 as [s|] eqn:Hi; simpl; [|done].
  apply setTheme_current. by rewrite Ht.
Qed.




(** C1, as the code has it.  With [available = ["red","blue"]], both themes
    configured, default "blue", nothing stored under "theme" and no
    [detectTheme], the mount hook resolves to "blue", which the ref already
    holds: the current theme is "blue", the only call made is the [getItem],
    and the root's class set, its attributes and the backend are as they
    were, so nothing is stored under "theme".  *)
Theorem red_blue_startup (e : Env) :
  env_local e !! "theme" = None →
  let c := controller red_blue in
  let w0 := (useTheme red_blue e).2 in
  let w := onMounted c w0 in
  theme w = Some "blue"
  ∧ classList w = env_classList e
  ∧ attributes w = env_attributes e
  ∧ localItems w = env_local e
  ∧ localItems w !! "theme" = None
  ∧ calls_between w0 w = [GetItem localStorage "theme"].
Proof.
  intros Hnone. cbv zeta.
  set (c := controller red_blue). set (w0 := (useTheme red_blue e).2).
  assert (Hst : stored_value c w0 = None) by exact Hnone.
  assert (Hi : (resolveInitial c w0).1 = theme w0).
  { rewrite resolveInitial_value, Hst. reflexivity. }
  rewrite (onMounted_resolved_current c w0 Hi).
  destruct (resolveInitial_world c w0) as (Ht & _ & Hc & Ha & Hit & Hlog).
  assert (Hl : localItems (resolveInitial c w0).2 = env_local e)
    by apply (Hit localStorage).
  split_and!; try done.
  - by rewrite Hl.
  - apply calls_between_app. rewrite Hlog. unfold resolution_calls.
    rewrite Hst. reflexivity.
Qed.

Lemma red_blue_startup_witness :
  env_local empty_env !! "theme" = None
  ∧ theme (onMounted red_blue_c red_blue_w) = Some "blue"
  ∧ classList (onMounted red_blue_c red_blue_w) = ∅.
Proof.
  assert (H : env_local empty_env !! "theme" = None) by reflexivity.
  split; [exact H|].
  destruct (red_blue_startup empty_env H) as (Ht & Hc & _).
  split; [exact Ht | exact Hc].
Defined.

(** C1 as stated fails: started from an empty root and an empty backend,
    the mount hook leaves the root without the class "theme-blue" and
    without a data-theme attribute, and stores nothing under "theme". *)
Lemma red_blue_startup_applies_nothing :
  let w := onMounted red_blue_c red_blue_w in
  ("theme-blue" ∉ classList w)
  ∧ attributes w !! "data-theme" = None
  ∧ localItems w !! "theme" = None
  ∧ ¬ (theme w = Some "blue"
       ∧ "theme-blue" ∈ classList w
       ∧ attributes w !! "data-theme" = Some "blue"
       ∧ localItems w !! "theme" = Some "blue").
Proof.
  cbv zeta.
  assert (Hc : "theme-blue" ∉ classList (onMounted red_blue_c red_blue_w)).
  { apply (bool_decide_unpack _). by vm_compute. }
  assert (Ha : attributes (onMounted red_blue_c red_blue_w) !! "data-theme"
               = None) by (by vm_compute).
  assert (Hl : localItems (onMounted red_blue_c red_blue_w) !! "theme" = None)
    by (by vm_compute).
  split; [exact Hc|]. split; [exact Ha|]. split; [exact Hl|].
  intros (_ & Hin & _). exact (Hc Hin).
Qed.

(** ** The sweep of [_applyTheme] *)

(** After [_applyTheme(name)] the class set holds what survived the sweep
    and the non-empty class marker of [name]'s configuration. *)
Lemma _applyTheme_classList (name cls : string) (w : World) :
  cls ∈ classList (_applyTheme name w) ↔
  cls ∈ classList (sweep w)
  ∨ ∃ config,
      themes w !! name = Some config ∧ class config = Some cls ∧ cls ≠ "".
Proof.
  assert (Hcls : ∀ x, (∃ config, Some x = Some config
                                 ∧ class config = Some cls ∧ cls ≠ "")
                      ↔ class x = Some cls ∧ cls ≠ "").
  { intros x. split.
    - intros (config & [= <-] & ?). done.
    - intros ?. by exists x. }
  unfold _applyTheme.
  destruct (themes w !! name) as [config|]; simpl.
  - rewrite Hcls.
    destruct (class config) as [k|]; simpl.
    + destruct (truthy k) eqn:Hk;
        destruct (dataTheme config) as [d|]; simpl;
        try destruct (truthy d); simpl.
      all: try (apply truthy_spec in Hk; rewrite elem_of_union,
                  elem_of_singleton; split;
                [intros [?| ->]; [by left | by right]
                |intros [?|[[= ->] _]]; [by left | by right]]).
      all: split; [by left|]; intros [?|[[= ->] Hne]]; [done|];
           apply truthy_spec in Hne; congruence.
    + destruct (dataTheme config) as [d|]; simpl;
        try destruct (truthy d); simpl;
        (split; [by left | by intros [?|[? _]]]).
  - split; [by left|]. by intros [?|(config & ? & _)].
Qed.




(** * Further properties of the composable *)

(** ** What an applied [setTheme] leaves on the root and in the backend *)

Lemma theme_marker_spec (w : World) (name cls : string) :
  theme_marker w name = Some cls
  ↔ ∃ config,
      themes w !! name = Some config ∧ class config = Some cls ∧ cls ≠ "".
Proof.
  unfold theme_marker, marker. destruct (themes w !! name) as [config|]; simpl.
  - destruct (class config) as [k|] eqn:Hc; simpl.
    + destruct (truthy k) eqn:Hk; split.
      * intros [= ->]. exists config. apply truthy_spec in Hk. done.
      * intros (config' & [= <-] & Hc' & _). congruence.
      * done.
      * intros (config' & [= <-] & Hc' & Hne).
        apply truthy_spec in Hne. congruence.
    + split; [done|]. intros (config' & [= <-] & ? & _). congruence.
  - split; [done|]. intros (config' & ? & _). done.
Qed.

Lemma theme_marker_configured (w : World) (name cls : string) :
  theme_marker w name = Some cls → configured_marker w cls.
Proof.
  intros H. apply theme_marker_spec in H as (config & ? & ? & ?).
  by exists name, config.
Qed.

(** The class set after [_applyTheme(name)]: the classes that are not
    configured markers stay, and of the configured markers only [name]'s
    is there. *)
Lemma _applyTheme_classes (name cls : string) (w : World) :
  cls ∈ classList (_applyTheme name w)
  ↔ (cls ∈ classList w ∧ ¬ configured_marker w cls)
    ∨ theme_marker w name = Some cls.
Proof.
  rewrite _applyTheme_classList, sweep_classList, theme_marker_spec. done.
Qed.

(** The attributes after [_applyTheme(name)]: data-theme is written when
    the entry has a non-empty [dataTheme] and removed otherwise. *)
Lemma _applyTheme_attributes (name : string) (w : World) :
  attributes (_applyTheme name w)
  = match theme_data w name with
    | Some d => <["data-theme" := d]> (attributes w)
    | None => delete "data-theme" (attributes w)
    end.
Proof.
  destruct (sweep_frame w) as (_ & _ & Ha & _).
  unfold _applyTheme, theme_data, nonempty.
  destruct (themes w !! name) as [config|]; simpl.
  - destruct (class config) as [k|]; simpl; try destruct (truthy k);
      destruct (dataTheme config) as [d|]; simpl; try destruct (truthy d);
      simpl; by rewrite Ha.
  - by rewrite Ha.
Qed.

Lemma items_setItem (st st' : StorageLike) (k v : string) (w : World) :
  items st' (setItem (Some st) k v w)
  = if decide (st' = st) then <[k := v]> (items st w) else items st' w.
Proof. by destruct st, st'. Qed.

Lemma items_applied (c : Controller) (value : string) (w : World)
  (st : StorageLike) :
  items st (applied c value w)
  = if decide (resolvedStorage c = Some st)
    then <[key c := value]> (items st w) else items st w.
Proof.
  unfold applied.
  destruct (_applyTheme_frame value (set_theme (Some value) w))
    as (_ & _ & Hi).
  destruct (resolvedStorage c) as [st0|].
  - rewrite items_setItem.
    destruct (decide (st = st0)) as [->|Hne].
    + rewrite decide_True by done. by rewrite Hi.
    + rewrite decide_False by congruence. by rewrite Hi.
  - rewrite decide_False by done. simpl. by rewrite Hi.
Qed.

Lemma themes_applied (c : Controller) (value : string) (w : World) :
  themes (applied c value w) = themes w.
Proof.
  unfold applied.
  destruct (setItem_frame (resolvedStorage c) (key c) value
              (_applyTheme value (set_theme (Some value) w))) as (_ & -> & _).
  by destruct (_applyTheme_frame value (set_theme (Some value) w))
    as (_ & -> & _).
Qed.

Lemma classes_applied (c : Controller) (value cls : string) (w : World) :
  cls ∈ classList (applied c value w)
  ↔ (cls ∈ classList w ∧ ¬ configured_marker w cls)
    ∨ theme_marker w value = Some cls.
Proof.
  unfold applied.
  destruct (setItem_frame (resolvedStorage c) (key c) value
              (_applyTheme value (set_theme (Some value) w)))
    as (_ & _ & -> & _).
  apply (_applyTheme_classes value cls (set_theme (Some value) w)).
Qed.

Lemma attributes_applied (c : Controller) (value : string) (w : World) :
  attributes (applied c value w)
  = match theme_data w value with
    | Some d => <["data-theme" := d]> (attributes w)
    | None => delete "data-theme" (attributes w)
    end.
Proof.
  unfold applied.
  destruct (setItem_frame (resolvedStorage c) (key c) value
              (_applyTheme value (set_theme (Some value) w)))
    as (_ & _ & _ & ->).
  apply (_applyTheme_attributes value (set_theme (Some value) w)).
Qed.

Lemma lookup_write_data_theme (v : option string) (a : gmap string string)
  (k : string) :
  write_data_theme v a !! k
  = if decide (k = "data-theme") then v else a !! k.
Proof.
  unfold write_data_theme. destruct v as [d|]; case_decide as Hk.
  - subst k. by rewrite lookup_insert_eq.
  - by rewrite lookup_insert_ne.
  - subst k. by rewrite lookup_delete_eq.
  - by rewrite lookup_delete_ne.
Qed.

Lemma attributes_applied_write (c : Controller) (value : string) (w : World) :
  attributes (applied c value w)
  = write_data_theme (theme_data w value) (attributes w).
Proof. apply attributes_applied. Qed.










(** ** What every call keeps *)

Lemma same_state_refl (w : World) : same_state w w.
Proof. by split_and!. Qed.

Lemma resolveInitial_same_state (c : Controller) (w : World) :
  same_state w (resolveInitial c w).2.
Proof.
  destruct (resolveInitial_world c w) as (? & ? & ? & ? & ? & _).
  by split_and!.
Qed.

Lemma setTheme_opt_shape (c : Controller) (v : option string) (w : World) :
  setTheme_opt c v w = w
  ∨ ∃ s, v = Some s ∧ s ∈ available c ∧ theme w ≠ Some s
         ∧ setTheme_opt c v w = applied c s w.
Proof.
  destruct v as [s|]; simpl; [|by left].
  destruct (decide (s ∈ available c)) as [Hin|Hin].
  - destruct (decide (theme w = Some s)) as [Heq|Hne].
    + left. by apply setTheme_current.
    + right. exists s. split_and!; try done. by apply setTheme_applied.
  - left. by apply setTheme_not_available.
Qed.

(** Every call only reads, possibly followed by one applied [setTheme]. *)
Lemma call_shape (c : Controller) (w : World) (k : Call) :
  ∃ w', same_state w w'
        ∧ (call c w k = w'
           ∨ ∃ s, s ∈ available c ∧ theme w' ≠ Some s
                  ∧ call c w k = applied c s w').
Proof.
  destruct k as [name| |]; simpl.
  - exists w. split; [apply same_state_refl|].
    destruct (setTheme_opt_shape c (Some name) w)
      as [H|(s & [= <-] & ? & ? & H)]; [by left|].
    right. by exists name.
  - exists w. split; [apply same_state_refl|]. unfold toggleTheme.
    destruct (setTheme_opt_shape c (at_index (available c) (nextIndex c w)) w)
      as [H|(s & _ & ? & ? & H)]; [by left|].
    right. by exists s.
  - exists (resolveInitial c w).2.
    split; [apply resolveInitial_same_state|]. rewrite onMounted_unfold.
    destruct (setTheme_opt_shape c (resolveInitial c w).1
                (resolveInitial c w).2)
      as [H|(s & _ & ? & ? & H)]; [by left|].
    right. by exists s.
Qed.

Lemma framed_same_state (c : Controller) (w w' : World) :
  same_state w w' → framed c w w'.
Proof.
  intros (_ & Hm & Hc & Ha & Hi). unfold framed.
  rewrite Hm, Ha, Hc. split_and!; try done. intros st k _. by rewrite Hi.
Qed.

Lemma framed_applied (c : Controller) (value : string) (w : World) :
  framed c w (applied c value w).
Proof.
  unfold framed. split_and!.
  - apply themes_applied.
  - intros a Ha. rewrite attributes_applied_write, lookup_write_data_theme.
    by rewrite decide_False.
  - intros cls Hc. rewrite classes_applied. split.
    + intros [[H _]|H]; [done|].
      destruct Hc. by eapply theme_marker_configured.
    + intros H. by left.
  - intros st k Hk. rewrite items_applied. case_decide as Hst; [|done].
    destruct Hk as [Hk|Hk]; [done|]. by rewrite lookup_insert_ne.
Qed.

Lemma framed_trans (c : Controller) (w1 w2 w3 : World) :
  framed c w1 w2 → framed c w2 w3 → framed c w1 w3.
Proof.
  intros (Hm & Ha & Hc & Hi) (Hm' & Ha' & Hc' & Hi'). unfold framed.
  split_and!.
  - by rewrite Hm'.
  - intros a Hne. by rewrite Ha', Ha.
  - intros cls Hn. rewrite Hc', Hc; [done | done |].
    unfold configured_marker. by rewrite Hm.
  - intros st k Hk. by rewrite Hi', Hi.
Qed.

Lemma framed_call (c : Controller) (w : World) (k : Call) :
  framed c w (call c w k).
Proof.
  destruct (call_shape c w k) as (w' & Hs & [->|(s & _ & _ & ->)]).
  - by apply framed_same_state.
  - eapply framed_trans; [by apply framed_same_state|apply framed_applied].
Qed.

Lemma framed_run (c : Controller) (ks : list Call) (w : World) :
  framed c w (run c ks w).
Proof.
  revert w. induction ks as [|k ks IH]; intros w; simpl.
  - apply framed_same_state, same_state_refl.
  - eapply framed_trans; [apply framed_call | apply IH].
Qed.


(** *** Agreement of ref, root and backend *)







(** ** The calls a controller makes *)

Lemma allowed_call_themes (c : Controller) (w w' : World) (ev : Event) :
  themes w' = themes w → allowed_call c w ev → allowed_call c w' ev.
Proof.
  intros Hm. destruct ev; simpl;
    unfold configured_marker, theme_data; by rewrite ?Hm.
Qed.

Lemma foldl_sweep_calls (l : list ThemeConfig) (w : World) :
  ∃ evs,
    log (foldl sweep_one w l) = evs ++ log w
    ∧ Forall (λ ev, ∃ config cls,
                config ∈ l ∧ class config = Some cls ∧ cls ≠ ""
                ∧ ev = ClassListRemove cls) evs.
Proof.
  revert w. induction l as [|config l IH]; intros w; simpl.
  - by exists [].
  - destruct (IH (sweep_one w config)) as (evs & -> & Hall).
    assert (Hall' : Forall (λ ev, ∃ config0 cls,
                config0 ∈ config :: l ∧ class config0 = Some cls ∧ cls ≠ ""
                ∧ ev = ClassListRemove cls) evs).
    { eapply Forall_impl; [exact Hall|].
      intros ev (config0 & cls & ? & ? & ? & ?).
      exists config0, cls. split_and!; try done. by right. }
    unfold sweep_one. destruct (class config) as [cls|] eqn:Hc;
      [|by exists evs].
    destruct (truthy cls) eqn:Ht; [|by exists evs].
    exists (evs ++ [ClassListRemove cls]). split.
    + by rewrite <- app_assoc.
    + apply Forall_app. split; [done|]. apply Forall_singleton.
      exists config, cls. apply truthy_spec in Ht.
      split_and!; try done. left.
Qed.

Lemma sweep_calls (c : Controller) (w : World) :
  ∃ evs, log (sweep w) = evs ++ log w ∧ Forall (allowed_call c w) evs.
Proof.
  destruct (foldl_sweep_calls (map_to_list (themes w)).*2 w)
    as (evs & Hlog & Hall).
  exists evs. split; [done|].
  eapply Forall_impl; [exact Hall|].
  intros ev (config & cls & Hin & Hc & Hne & ->). simpl.
  apply list_elem_of_fmap in Hin as ([name config'] & -> & Hin).
  apply elem_of_map_to_list in Hin. by exists name, config'.
Qed.

(** [_applyTheme] as three steps: the sweep, the class of the theme, the
    data-theme attribute. *)
Lemma _applyTheme_steps (name : string) (w : World) :
  _applyTheme name w
  = let w1 := sweep w in
    let w2 := match theme_marker w name with
              | Some k => classList_add k w1
              | None => w1
              end in
    match theme_data w name with
    | Some d => setAttribute "data-theme" d w2
    | None => removeAttribute "data-theme" w2
    end.
Proof.
  unfold _applyTheme, theme_marker, theme_data, marker, nonempty.
  destruct (themes w !! name) as [config|]; simpl; [|done].
  destruct (class config) as [k|]; simpl; [destruct (truthy k)|];
    (destruct (dataTheme config) as [d|]; simpl; [destruct (truthy d)|]);
    done.
Qed.

Lemma _applyTheme_calls (c : Controller) (name : string) (w : World) :
  name ∈ available c →
  ∃ evs,
    log (_applyTheme name w) = evs ++ log w ∧ Forall (allowed_call c w) evs.
Proof.
  intros Hin.
  destruct (sweep_calls c w) as (evs & Hlog & Hall).
  rewrite _applyTheme_steps. cbv zeta.
  destruct (theme_marker w name) as [k|] eqn:Hk;
    destruct (theme_data w name) as [d|] eqn:Hd; simpl; rewrite Hlog.
  - exists (SetAttribute "data-theme" d :: ClassListAdd k :: evs).
    split; [done|]. repeat apply Forall_cons_2; try done.
    + split; [done|]. by exists name.
    + by eapply theme_marker_configured.
  - exists (RemoveAttribute "data-theme" :: ClassListAdd k :: evs).
    split; [done|]. repeat apply Forall_cons_2; try done.
    by eapply theme_marker_configured.
  - exists (SetAttribute "data-theme" d :: evs).
    split; [done|]. apply Forall_cons_2; [|done].
    split; [done|]. by exists name.
  - exists (RemoveAttribute "data-theme" :: evs).
    split; [done|]. by apply Forall_cons_2.
Qed.

Lemma applied_allowed (c : Controller) (value : string) (w : World) :
  value ∈ available c →
  ∃ evs,
    log (applied c value w) = evs ++ log w ∧ Forall (allowed_call c w) evs.
Proof.
  intros Hin.
  destruct (_applyTheme_calls c value (set_theme (Some value) w) Hin)
    as (evs & Hlog & Hall).
  simpl in Hlog. unfold applied.
  destruct (resolvedStorage c) as [st|] eqn:Hst; simpl.
  - exists (SetItem st (key c) value :: evs). rewrite Hlog.
    split; [done|]. apply Forall_cons_2; [by simpl|done].
  - by exists evs.
Qed.

Lemma resolution_calls_allowed (c : Controller) (w : World) :
  Forall (allowed_call c w) (resolution_calls c w).
Proof.
  unfold resolution_calls. apply Forall_app. split.
  - destruct (isValid c (stored_value c w)); [done|].
    destruct (detectTheme c) as [r|] eqn:Hd; [|done].
    apply Forall_singleton. simpl. by rewrite Hd.
  - destruct (resolvedStorage c) as [st|] eqn:Hst; [|done].
    apply Forall_singleton. simpl. by rewrite Hst.
Qed.

Lemma call_allowed (c : Controller) (w : World) (k : Call) :
  ∃ evs, log (call c w k) = evs ++ log w ∧ Forall (allowed_call c w) evs.
Proof.
  assert (Hopt : ∀ v w0,
             ∃ evs, log (setTheme_opt c v w0) = evs ++ log w0
                    ∧ Forall (allowed_call c w0) evs).
  { intros v w0.
    destruct (setTheme_opt_shape c v w0) as [->|(s & _ & Hin & _ & ->)].
    - by exists [].
    - by apply applied_allowed. }
  destruct k as [name| |]; simpl.
  - apply (Hopt (Some name)).
  - apply Hopt.
  - rewrite onMounted_unfold.
    destruct (Hopt (resolveInitial c w).1 (resolveInitial c w).2)
      as (evs & -> & Hall).
    destruct (resolveInitial_world c w) as (_ & Hm & _ & _ & _ & ->).
    exists (evs ++ resolution_calls c w). split; [by rewrite app_assoc|].
    apply Forall_app. split.
    + eapply Forall_impl; [exact Hall|].
      intros ev. by apply allowed_call_themes.
    + apply resolution_calls_allowed.
Qed.

Lemma run_allowed (c : Controller) (ks : list Call) (w : World) :
  ∃ evs, log (run c ks w) = evs ++ log w ∧ Forall (allowed_call c w) evs.
Proof.
  revert w. induction ks as [|k ks IH]; intros w; simpl; [by exists []|].
  destruct (call_allowed c w k) as (evs1 & Hl1 & Ha1).
  destruct (IH (call c w k)) as (evs2 & -> & Ha2).
  exists (evs2 ++ evs1). rewrite Hl1. split; [by rewrite app_assoc|].
  apply Forall_app. split; [|done].
  eapply Forall_impl; [exact Ha2|].
  intros ev. apply allowed_call_themes.
  by destruct (framed_call c w k) as (-> & _).
Qed.

(** X6. Every call a controller makes, in any sequence of operations, is one
    of: removing or adding a configured class marker, setting data-theme
    to the [dataTheme] of an available theme or removing it, reading its
    own backend under its own key or writing an available name there,
    calling a supplied [detectTheme]. *)
Theorem calls_are_allowed (c : Controller) (ks : list Call) (w : World) :
  Forall (allowed_call c w) (calls_between w (run c ks w)).
Proof.
  destruct (run_allowed c ks w) as (evs & Hlog & Hall).
  by rewrite (calls_between_app w _ evs Hlog).
Qed.

(** X7. With [storage: 'none'] no sequence of calls reads or writes a storage
    backend: the three stores are as they were and the call log has no
    [getItem] and no [setItem]. *)
Theorem storage_none_is_never_touched (o : ThemeOptions) (e : Env)
  (ks : list Call) :
  opt_storage o = Some StorageNone →
  let c := controller o in
  let w := (useTheme o e).2 in
  (∀ st, items st (run c ks w) = items st w)
  ∧ Forall (λ ev, is_storage_call ev = false) (calls_between w (run c ks w)).
Proof.
  intros Hnone. cbv zeta.
  set (c := controller o). set (w := (useTheme o e).2).
  assert (Hr : resolvedStorage c = None).
  { unfold c, controller. simpl. by rewrite Hnone. }
  split.
  - intros st. apply map_eq. intros k.
    destruct (framed_run c ks w) as (_ & _ & _ & Hi).
    apply Hi. left. by rewrite Hr.
  - destruct (run_allowed c ks w) as (evs & Hlog & Hall).
    rewrite (calls_between_app w _ evs Hlog).
    eapply Forall_impl; [exact Hall|].
    intros ev Hev. destruct ev; simpl in *; try done.
    + destruct Hev as [Hev _]. by rewrite Hr in Hev.
    + destruct Hev as [Hev _]. by rewrite Hr in Hev.
Qed.

(** ** Toggling further *)

Lemma toggleTheme_next_theme (c : Controller) (w : World) (k : nat)
  (x : string) :
  NoDup (available c) → available c !! k = Some x → theme w = Some x →
  theme (toggleTheme c w)
  = available c !! ((k + 1) `mod` length (available c))%nat.
Proof.
  intros Hnd Hk Ht.
  destruct (toggleTheme_next c w k x Hnd Hk Ht) as (y & Hy & _ & Hth).
  by rewrite Hy.
Qed.

(** X8. In a duplicate-free [available], [j] toggles from the entry at
    position [k] lead to the entry at (k + j) mod length; as many toggles
    as there are entries lead back to the start. *)
Theorem toggleTheme_iterated (c : Controller) (w : World) (k : nat)
  (x : string) :
  NoDup (available c) → available c !! k = Some x → theme w = Some x →
  (∀ j : nat,
     theme (Nat.iter j (toggleTheme c) w)
     = available c !! ((k + j) `mod` length (available c))%nat)
  ∧ theme (Nat.iter (length (available c)) (toggleTheme c) w) = Some x.
Proof.
  intros Hnd Hk Ht.
  assert (Hlt : (k < length (available c))%nat)
    by (by eapply lookup_lt_Some).
  assert (Hiter : ∀ j : nat,
             theme (Nat.iter j (toggleTheme c) w)
             = available c !! ((k + j) `mod` length (available c))%nat).
  { induction j as [|j IH].
    - simpl. rewrite Nat.add_0_r, Nat.mod_small by done. by rewrite Ht.
    - simpl.
      assert (Hb : ((k + j) `mod` length (available c)
                    < length (available c))%nat)
        by (apply Nat.mod_upper_bound; lia).
      destruct (lookup_lt_is_Some_2 _ _ Hb) as [y Hy].
      rewrite Hy in IH.
      rewrite (toggleTheme_next_theme c _ _ y Hnd Hy IH).
      f_equal. rewrite Nat.Div0.add_mod_idemp_l. f_equal. lia. }
  split; [exact Hiter|].
  rewrite Hiter.
  replace (k + length (available c))%nat
    with (k + 1 * length (available c))%nat by lia.
  rewrite Nat.Div0.mod_add, Nat.mod_small by done. done.
Qed.

Lemma toggleTheme_iterated_witness :
  NoDup (available abc_c) ∧ available abc_c !! 0%nat = Some "a"
  ∧ theme abc_w = Some "a"
  ∧ theme (Nat.iter 3 (toggleTheme abc_c) abc_w) = Some "a".
Proof.
  assert (Hnd : NoDup (available abc_c)).
  { apply (bool_decide_unpack _). by vm_compute. }
  assert (Hk : available abc_c !! 0%nat = Some "a") by reflexivity.
  assert (Ht : theme abc_w = Some "a") by reflexivity.
  split; [exact Hnd|]. split; [exact Hk|]. split; [exact Ht|].
  exact (proj2 (toggleTheme_iterated abc_c abc_w 0 "a" Hnd Hk Ht)).
Defined.

Lemma indexOf_from_first (pre post : list string) (x : string) (i : Z) :
  x ∉ pre →
  indexOf_from (pre ++ x :: post) (Some x) i = i + Z.of_nat (length pre).
Proof.
  revert i. induction pre as [|y pre IH]; intros i Hx; simpl.
  - rewrite decide_True by done. lia.
  - apply not_elem_of_cons in Hx as [Hxy Hx].
    rewrite decide_False by congruence. rewrite IH by done. lia.
Qed.

(** X9. With duplicates in [available], [toggleTheme] starts from the first
    occurrence of the current theme: it hands [setTheme] the entry that
    follows that occurrence (the first entry of [available] when the
    occurrence is the last entry). *)
Theorem toggleTheme_follows_first_occurrence (c : Controller) (w : World)
  (pre post : list string) (x : string) :
  available c = pre ++ x :: post → x ∉ pre → theme w = Some x →
  ∃ y, head (post ++ available c) = Some y
       ∧ toggleTheme c w = setTheme c y w.
Proof.
  intros Hav Hx Ht.
  assert (Hne : available c ≠ []).
  { rewrite Hav. by destruct pre. }
  destruct (toggleTheme_setTheme c w Hne) as (y & Hy & Htog).
  exists y. split; [|done].
  assert (Hidx : indexOf (available c) (theme w) = Z.of_nat (length pre)).
  { rewrite Ht, Hav. unfold indexOf. rewrite indexOf_from_first by done. lia. }
  rewrite Hidx in Hy.
  assert (Hlen : length (available c) = (length pre + S (length post))%nat).
  { rewrite Hav, length_app. done. }
  rewrite Hlen in Hy.
  destruct post as [|p post].
  - simpl in Hlen, Hy.
    replace (Z.of_nat (length pre) + 1) with (Z.of_nat (length pre + 1))
      in Hy by lia.
    rewrite Z_mod_same_full in Hy. simpl in Hy. simpl.
    by rewrite head_lookup.
  - simpl.
    rewrite Z.mod_small in Hy by (simpl; lia).
    replace (Z.to_nat (Z.of_nat (length pre) + 1))
      with (length pre + 1)%nat in Hy by lia.
    rewrite Hav in Hy.
    rewrite lookup_app_r in Hy by lia.
    replace (length pre + 1 - length pre)%nat with 1%nat in Hy by lia.
    simpl in Hy. done.
Qed.

Lemma toggleTheme_follows_first_occurrence_witness :
  available abc_c = ["a"] ++ "b" :: ["c"] ∧ ("b" ∉ ["a"])
  ∧ ∃ y, head (["c"] ++ available abc_c) = Some y
         ∧ toggleTheme abc_c (set_theme (Some "b") abc_w)
           = setTheme abc_c y (set_theme (Some "b") abc_w).
Proof.
  assert (Hav : available abc_c = ["a"] ++ "b" :: ["c"]) by reflexivity.
  assert (Hx : "b" ∉ ["a"]).
  { apply (bool_decide_unpack _). by vm_compute. }
  split; [exact Hav|]. split; [exact Hx|].
  exact (toggleTheme_follows_first_occurrence abc_c
           (set_theme (Some "b") abc_w) ["a"] ["c"] "b" Hav Hx eq_refl).
Defined.

(** ** An empty [available] *)

(** X10. With an empty [available] nothing ever changes: [setTheme] rejects
    every name, [toggleTheme] computes no index, the mount hook only reads.
    The ref, the root and the backends stay as they were. *)
Theorem empty_available_is_inert (c : Controller) (ks : list Call)
  (w : World) :
  available c = [] → same_state w (run c ks w).
Proof.
  intros Hav.
  assert (Hset : ∀ v w0, setTheme_opt c v w0 = w0).
  { intros [s|] w0; simpl; [|done].
    apply setTheme_not_available. rewrite Hav. apply not_elem_of_nil. }
  assert (Hcall : ∀ w0 k, same_state w0 (call c w0 k)).
  { intros w0 [name| |]; simpl.
    - pose proof (Hset (Some name) w0) as H. simpl in H. rewrite H.
      apply same_state_refl.
    - unfold toggleTheme. rewrite Hset. apply same_state_refl.
    - rewrite onMounted_unfold, Hset. apply resolveInitial_same_state. }
  revert w. induction ks as [|k ks IH]; intros w; simpl.
  - apply same_state_refl.
  - destruct (Hcall w k) as (Ht & Hm & Hc & Ha & Hi).
    destruct (IH (call c w k)) as (Ht' & Hm' & Hc' & Ha' & Hi').
    unfold same_state. rewrite Ht', Hm', Hc', Ha', Ht, Hm, Hc, Ha.
    split_and!; try done. intros st. by rewrite Hi', Hi.
Qed.

Lemma empty_available_is_inert_witness :
  available (controller nothing_available) = []
  ∧ same_state (useTheme nothing_available empty_env).2
      (run (controller nothing_available)
         [CallToggleTheme; CallSetTheme "dark"; CallMounted]
         (useTheme nothing_available empty_env).2).
Proof.
  assert (Hav : available (controller nothing_available) = [])
    by reflexivity.
  split; [exact Hav|].
  exact (empty_available_is_inert (controller nothing_available)
           [CallToggleTheme; CallSetTheme "dark"; CallMounted]
           (useTheme nothing_available empty_env).2 Hav).
Defined.

Lemma storage_none_is_never_touched_witness :
  opt_storage unstored = Some StorageNone
  ∧ Forall (λ ev, is_storage_call ev = false)
      (calls_between (useTheme unstored empty_env).2
         (run (controller unstored) [CallMounted; CallToggleTheme]
              (useTheme unstored empty_env).2)).
Proof.
  assert (H : opt_storage unstored = Some StorageNone) by reflexivity.
  split; [exact H|].
  exact (proj2 (storage_none_is_never_touched unstored empty_env
                  [CallMounted; CallToggleTheme] H)).
Defined.


(** ** Mounting again, and mounting another controller *)











(** ** Never deleting from a backend *)

Lemma call_keeps_entries (c : Controller) (w : World) (k : Call)
  (st : StorageLike) (i : string) :
  is_Some (items st w !! i) → is_Some (items st (call c w k) !! i).
Proof.
  intros H.
  destruct (call_shape c w k)
    as (w' & (_ & _ & _ & _ & Hi) & [->|(s & _ & _ & ->)]).
  - by rewrite Hi.
  - rewrite items_applied, Hi. case_decide; [|done].
    destruct (decide (i = key c)) as [->|Hne].
    + rewrite lookup_insert_eq. by eexists.
    + by rewrite lookup_insert_ne.
Qed.

(** X14. No sequence of calls deletes an entry of a storage backend: what is
    bound before is still bound after (the controller never removes an
    item, not even a stored value it found invalid). *)
Theorem backend_entries_are_never_deleted (c : Controller) (ks : list Call)
  (w : World) (st : StorageLike) (i : string) :
  is_Some (items st w !! i) → is_Some (items st (run c ks w) !! i).
Proof.
  revert w. induction ks as [|k ks IH]; intros w H; [done|].
  simpl. apply IH. by apply call_keeps_entries.
Qed.

Lemma backend_entries_are_never_deleted_witness :
  let c := controller with_empty_name in
  let w := (useTheme with_empty_name stored_empty_name).2 in
  is_Some (items localStorage w !! "theme")
  ∧ is_Some (items localStorage
               (run c [CallMounted; CallSetTheme "light"] w) !! "theme").
Proof.
  set (c := controller with_empty_name).
  set (w := (useTheme with_empty_name stored_empty_name).2).
  assert (H : is_Some (items localStorage w !! "theme")).
  { exists "". by vm_compute. }
  split; [exact H|].
  exact (backend_entries_are_never_deleted c
           [CallMounted; CallSetTheme "light"] w localStorage "theme" H).
Defined.

(** ** Toggling with at least two themes *)

(** X15. In a duplicate-free [available] with at least two entries, when the
    current theme is available, [toggleTheme] always switches: it passes
    both guards of [setTheme], and the new current theme is an available
    name other than the previous one. *)
Theorem toggleTheme_switches (c : Controller) (w : World) :
  NoDup (available c) → (2 <= length (available c))%nat →
  in_available c w →
  ∃ y, y ∈ available c ∧ theme w ≠ Some y
       ∧ toggleTheme c w = applied c y w
       ∧ theme (toggleTheme c w) = Some y.
Proof.
  intros Hnd Hlen (x & Hx & Hin).
  apply list_elem_of_lookup_1 in Hin as [k Hk].
  assert (Hlt : (k < length (available c))%nat)
    by (by eapply lookup_lt_Some).
  destruct (toggleTheme_next c w k x Hnd Hk Hx) as (y & Hy & Htog & Hth).
  assert (Hyin : y ∈ available c) by (by eapply list_elem_of_lookup_2).
  assert (Hyx : theme w ≠ Some y).
  { rewrite Hx. intros [= ->].
    pose proof (NoDup_lookup _ _ _ _ Hnd Hy Hk) as Heq.
    destruct (decide (k + 1 < length (available c))%nat) as [Hs|Hs].
    - rewrite Nat.mod_small in Heq by done. lia.
    - replace (k + 1)%nat with (length (available c)) in Heq by lia.
      rewrite Nat.Div0.mod_same in Heq. lia. }
  exists y. split_and!; try done.
  rewrite Htog. by apply setTheme_applied.
Qed.

Lemma toggleTheme_switches_witness :
  ∃ y, y ∈ available red_blue_c ∧ theme red_blue_w ≠ Some y
       ∧ toggleTheme red_blue_c red_blue_w = applied red_blue_c y red_blue_w
       ∧ theme (toggleTheme red_blue_c red_blue_w) = Some y.
Proof.
  assert (Hnd : NoDup (available red_blue_c)).
  { apply (bool_decide_unpack _). by vm_compute. }
  assert (Hlen : (2 <= length (available red_blue_c))%nat)
    by (simpl; lia).
  assert (Hin : in_available red_blue_c red_blue_w).
  { exists "blue". split; [reflexivity|].
    apply (bool_decide_unpack _). by vm_compute. }
  exact (toggleTheme_switches red_blue_c red_blue_w Hnd Hlen Hin).
Defined.
